(** * wasmecdict: the dictionary loader and [LookUp] of ecdict.go

    A shallow embedding of [ecdict.go].  Go strings are byte strings, so
    they are modelled by [string] (a list of 8-bit [ascii]); the two
    package-level maps are [gmap]s; [log.Fatal] is the [None] of an
    option-state monad; the pointer returned by [LookUp] is an address in
    an explicit heap of [DictItem] cells. *)

From Stdlib Require Import String Ascii List Bool Arith Lia.
From stdpp Require Import gmap strings list fin_maps.

Import ListNotations.
Local Open Scope string_scope.
Local Open Scope list_scope.

(** ** The Go standard library, as far as ecdict.go calls it *)

(** [strings.TrimSpace] and [strings.ToLower] work on the Unicode reading of
    a byte string (UTF-8 decoding, the White_Space property, the case
    tables).  The program only calls them, so they are an interface. *)
Class GoStrings := {
  TrimSpace : string -> string;
  ToLower : string -> string
}.

Module Strings.

(** [strings.HasPrefix(s, prefix)]. *)
Definition HasPrefix (s prefix : string) : bool := String.prefix prefix s.

(** [strings.Split(s, sep)] for a non-empty [sep] (ecdict.go splits on
    [" -> "], ["/"] and [","]): the pieces between the leftmost,
    non-overlapping occurrences of [sep].  [skip] counts the bytes of a
    matched separator still to be dropped; [cur] is the piece being read. *)
Fixpoint splitFrom (sep : string) (skip : nat) (cur s : string) : list string :=
  match s with
  | EmptyString => [cur]
  | String c s' =>
      match skip with
      | S k => splitFrom sep k cur s'
      | O =>
          if String.prefix sep s
          then cur :: splitFrom sep (String.length sep - 1) EmptyString s'
          else splitFrom sep 0 (cur ++ String c EmptyString) s'
      end
  end.

Definition Split (s sep : string) : list string := splitFrom sep 0 EmptyString s.

(** [strings.ReplaceAll(s, old, new)] for a non-empty [old]: every
    leftmost, non-overlapping occurrence of [old] becomes [new]. *)
Fixpoint replaceFrom (old new : string) (skip : nat) (s : string) : string :=
  match s with
  | EmptyString => EmptyString
  | String c s' =>
      match skip with
      | S k => replaceFrom old new k s'
      | O =>
          if String.prefix old s
          then new ++ replaceFrom old new (String.length old - 1) s'
          else String c (replaceFrom old new 0 s')
      end
  end.

Definition ReplaceAll (s old new : string) : string := replaceFrom old new 0 s.

(** [occurs pat s]: [pat] is a substring of [s]. *)
Fixpoint occurs (pat s : string) : bool :=
  String.prefix pat s ||
  match s with
  | EmptyString => false
  | String _ s' => occurs pat s'
  end.

End Strings.

(** The two interface functions on strings whose bytes are all below 0x80,
    where Go's definitions need no decoding: [asciiSpace] of strings.go
    and the ['A'..'Z'] loop of [ToLower]. *)
Module Ascii7.

Definition asciiSpace (c : ascii) : bool :=
  match nat_of_ascii c with
  | 9 | 10 | 11 | 12 | 13 | 32 => true
  | _ => false
  end.

Fixpoint trimLeft (s : string) : string :=
  match s with
  | EmptyString => EmptyString
  | String c s' => if asciiSpace c then trimLeft s' else s
  end.

Fixpoint trimRight (s : string) : string :=
  match s with
  | EmptyString => EmptyString
  | String c s' =>
      match trimRight s' with
      | EmptyString => if asciiSpace c then EmptyString else String c EmptyString
      | t => String c t
      end
  end.

Definition trimSpace (s : string) : string := trimRight (trimLeft s).

Definition lowerByte (c : ascii) : ascii :=
  let n := nat_of_ascii c in
  if ((65 <=? n) && (n <=? 90))%nat then ascii_of_nat (n + 32) else c.

Fixpoint toLower (s : string) : string :=
  match s with
  | EmptyString => EmptyString
  | String c s' => String (lowerByte c) (toLower s')
  end.

Definition goStrings : GoStrings := {| TrimSpace := trimSpace; ToLower := toLower |}.

End Ascii7.

(** ** The data of ecdict.go *)

(** [type DictItem struct]. *)
Record DictItem := {
  Word : string;
  Phonetic : string;
  Definition_ : string;
  Translation : string;
  Pos : string;
  Collins : string;
  Oxford : string;
  Tag : string;
  Bnc : string;
  Frq : string;
  Exchange : string;
  Detail : string;
  Audio : string
}.

(** [func (d *DictItem) toMap() map[string]interface{}].  The receiver is
    nil ([None]) or points to a struct; the result is the nil map ([None])
    or the map of the composite literal.  Every value the literal stores in
    an [interface{}] is a string, so the values are modelled as strings. *)
Definition toMap (d : option DictItem) : option (gmap string string) :=
  match d with
  | None => None
  | Some d =>
      Some (list_to_map
              [("word", Word d);
               ("phonetic", Phonetic d);
               ("definition", Definition_ d);
               ("translation", Translation d);
               ("pos", Pos d);
               ("collins", Collins d);
               ("oxford", Oxford d);
               ("tag", Tag d);
               ("bnc", Bnc d);
               ("frq", Frq d);
               ("exchange", Exchange d);
               ("detail", Detail d);
               ("audio", Audio d)])
  end.

(** The keys of the composite literal of [toMap], in its order. *)
Definition toMapKeys : list string :=
  ["word"; "phonetic"; "definition"; "translation"; "pos"; "collins"; "oxford";
   "tag"; "bnc"; "frq"; "exchange"; "detail"; "audio"].

(** What one call of [r.Read()] on the csv reader gives back before
    [io.EOF]: a record, or an error that is not [io.EOF] (a quoting error;
    also, with the settings [csv.NewReader] starts with, a record whose
    number of fields is not that of the first record). *)
Inductive ReadResult :=
| ReadRecord (record : list string)
| ReadError.

(** The embedded files as the program sees them: [ecdictCsv] through
    [csv.NewReader(...).Read()] (the end of the list is [io.EOF]),
    [lemmaEnTxt] through [bufio.Scanner] (one [scanner.Text()] per element). *)
Class Assets := {
  ecdictCsv : list ReadResult;
  lemmaEnTxt : list string
}.

(** The line-break byte that Go writes ["\n"]. *)
Definition LF : string := String (ascii_of_nat 10) EmptyString.

(** The two bytes that Go writes ["\\n"]. *)
Definition backslash_n : string := String (ascii_of_nat 92) (String (ascii_of_nat 110) EmptyString).

(** [func removeBr(w string) string]. *)
Definition removeBr (w : string) : string := Strings.ReplaceAll w backslash_n LF.

(** ** Package state and the monad of the program

    [dictMapSingleton] and [lemmaMapSingleton] are the package-level
    variables.  A Go map of structs holds the structs by value, so the
    dictionary map is a map to [DictItem], not to addresses.  [heap] holds
    the variables whose address has escaped: the local [dictItem] of each
    [LookUp] call that returned [&dictItem]. *)
Record State := {
  dictMapSingleton : gmap string DictItem;
  lemmaMapSingleton : gmap string string;
  heap : list DictItem
}.

(** A [*DictItem] that is not nil: the address of a heap cell. *)
Definition ptr := nat.

(** A computation over the package state; [None] is the process exit of
    [log.Fatal]. *)
Definition M (A : Type) : Type := State -> option (A * State).

Definition ret {A} (a : A) : M A := fun s => Some (a, s).

Definition bind {A B} (c : M A) (k : A -> M B) : M B :=
  fun s => match c s with
           | Some (a, s') => k a s'
           | None => None
           end.

Notation "'let*' x ':=' c 'in' k" := (bind c (fun x => k))
  (at level 10, x name, c at level 100, k at level 200).

Definition get {A} (proj : State -> A) : M A := fun s => Some (proj s, s).

(** [log.Fatal(err)] when the value is missing. *)
Definition orFatal {A} (o : option A) : M A :=
  fun s => match o with
           | Some a => Some (a, s)
           | None => None
           end.

Definition setDictMap (m : gmap string DictItem) : M unit :=
  fun s => Some (tt, {| dictMapSingleton := m;
                        lemmaMapSingleton := lemmaMapSingleton s;
                        heap := heap s |}).

Definition setLemmaMap (m : gmap string string) : M unit :=
  fun s => Some (tt, {| dictMapSingleton := dictMapSingleton s;
                        lemmaMapSingleton := m;
                        heap := heap s |}).

(** [&dictItem] for a local variable that escapes: a fresh cell holding a
    copy of the value. *)
Definition alloc (item : DictItem) : M ptr :=
  fun s => Some (length (heap s),
                 {| dictMapSingleton := dictMapSingleton s;
                    lemmaMapSingleton := lemmaMapSingleton s;
                    heap := heap s ++ [item] |}).

(** What a caller can do with a returned pointer: read the cell ... *)
Definition deref (p : ptr) (s : State) : option DictItem := heap s !! p.

(** ... and assign to it ([*p = item], or any field assignment). *)
Definition store (p : ptr) (item : DictItem) (s : State) : State :=
  {| dictMapSingleton := dictMapSingleton s;
     lemmaMapSingleton := lemmaMapSingleton s;
     heap := <[p := item]> (heap s) |}.

(** The state [s] with another heap: the maps are those of [s]. *)
Definition withHeap (h : list DictItem) (s : State) : State :=
  {| dictMapSingleton := dictMapSingleton s;
     lemmaMapSingleton := lemmaMapSingleton s;
     heap := h |}.

(** [var dictMapSingleton = map[string]DictItem{}] and
    [var lemmaMapSingleton = map[string]string{}]. *)
Definition initialState : State :=
  {| dictMapSingleton := ∅; lemmaMapSingleton := ∅; heap := [] |}.

(** ** The functions of ecdict.go *)

Section Ecdict.
Context {goStrings : GoStrings} {assets : Assets}.

Definition rowElementCount : nat := 13.

(** [record[i]]; every use is behind the [len(record)] guard. *)
Definition field (record : list string) (i : nat) : string := nth i record EmptyString.

(** The composite literal [DictItem{Word: word, Phonetic: record[1], ...}]. *)
Definition newDictItem (word : string) (record : list string) : DictItem :=
  {| Word := word;
     Phonetic := field record 1;
     Definition_ := removeBr (field record 2);
     Translation := removeBr (field record 3);
     Pos := field record 4;
     Collins := field record 5;
     Oxford := field record 6;
     Tag := field record 7;
     Bnc := field record 8;
     Frq := field record 9;
     Exchange := field record 10;
     Detail := field record 11;
     Audio := field record 12 |}.

(** The body of the [for] loop of [parseDict] for a record read without
    error; each [continue] leaves [dictMap] as it is. *)
Definition parseDictRecord (record : list string) (dictMap : gmap string DictItem)
  : gmap string DictItem :=
  if negb (rowElementCount =? length record)%nat then dictMap else
  let word := TrimSpace (field record 0) in
  if String.eqb word "" then dictMap else
  let dictItem := newDictItem word record in
  if String.eqb (Word dictItem) "word" && String.eqb (Phonetic dictItem) "phonetic"
  then dictMap
  else <[ToLower word := dictItem]> (<[word := dictItem]> dictMap).

(** The [for] loop of [parseDict]: [io.EOF] ends it, any other error is
    [log.Fatal]. *)
Fixpoint parseDictLoop (reads : list ReadResult) (dictMap : gmap string DictItem)
  : option (gmap string DictItem) :=
  match reads with
  | [] => Some dictMap
  | ReadError :: _ => None
  | ReadRecord record :: rest => parseDictLoop rest (parseDictRecord record dictMap)
  end.

(** [func parseDict() map[string]DictItem]. *)
Definition parseDict : option (gmap string DictItem) := parseDictLoop ecdictCsv ∅.

(** The inner loop of [parseLemma], [for _, lemma := range lParts]. *)
Definition parseLemmaParts (originalWord : string) (lParts : list string)
    (lemmaMap : gmap string string) : gmap string string :=
  fold_left (fun lemmaMap lemma =>
               let lemma := TrimSpace lemma in
               if String.eqb lemma "" then lemmaMap
               else <[lemma := originalWord]> lemmaMap)
            lParts lemmaMap.

(** The body of the outer loop of [parseLemma] for one [scanner.Text()]. *)
Definition parseLemmaLine (text : string) (lemmaMap : gmap string string)
  : gmap string string :=
  let line := TrimSpace text in
  if Strings.HasPrefix line ";" then lemmaMap else
  let parts := Strings.Split line " -> " in
  if negb (length parts =? 2)%nat then lemmaMap else
  let rParts := Strings.Split (nth 0 parts EmptyString) "/" in
  let lParts := Strings.Split (nth 1 parts EmptyString) "," in
  let originalWord :=
    if (0 <? length rParts)%nat then TrimSpace (nth 0 rParts EmptyString) else EmptyString in
  if String.eqb originalWord "" then lemmaMap else
  parseLemmaParts originalWord lParts lemmaMap.

Definition parseLemmaLoop (lines : list string) (lemmaMap : gmap string string)
  : gmap string string :=
  fold_left (fun lemmaMap text => parseLemmaLine text lemmaMap) lines lemmaMap.

(** [func parseLemma() map[string]string]. *)
Definition parseLemma : gmap string string := parseLemmaLoop lemmaEnTxt ∅.

(** [func loadDict()]. *)
Definition loadDict : M unit :=
  let* dictMap := get dictMapSingleton in
  let* _ := (if (size dictMap =? 0)%nat
             then let* parsed := orFatal parseDict in setDictMap parsed
             else ret tt) in
  let* lemmaMap := get lemmaMapSingleton in
  if (size lemmaMap =? 0)%nat then setLemmaMap parseLemma else ret tt.

(** [func init()]. *)
Definition init : M unit := loadDict.

(** [func LookUp(word string) *DictItem]; [None] is [nil]. *)
Definition LookUp (word : string) : M (option ptr) :=
  let* _ := loadDict in
  let word := TrimSpace word in
  let* lemmaMap := get lemmaMapSingleton in
  let baseWord := match lemmaMap !! word with
                  | Some baseWord => baseWord
                  | None => word
                  end in
  let* dictMap := get dictMapSingleton in
  match dictMap !! baseWord with
  | None => ret None
  | Some dictItem => let* p := alloc dictItem in ret (Some p)
  end.

(** [loadDict] called [n] times in a row. *)
Fixpoint loadDictTimes (n : nat) : M unit :=
  match n with
  | O => ret tt
  | S n' => let* _ := loadDict in loadDictTimes n'
  end.

(** The states the package can be in: [init] has run before any caller,
    and callers can only call [LookUp] and use the pointers they got. *)
Inductive reachable : State -> Prop :=
| reachable_init s :
    init initialState = Some (tt, s) -> reachable s
| reachable_LookUp s word r s' :
    reachable s -> LookUp word s = Some (r, s') -> reachable s'
| reachable_store s p item :
    reachable s -> reachable (store p item s).

End Ecdict.

(** ** Vocabulary of the statements *)

Section Vocabulary.
Context {goStrings : GoStrings} {assets : Assets}.

(** The three guards of the loop of [parseDict], as one test. *)
Definition accepted (record : list string) : bool :=
  (rowElementCount =? length record)%nat
  && negb (String.eqb (TrimSpace (field record 0)) "")
  && negb (String.eqb (TrimSpace (field record 0)) "word"
           && String.eqb (field record 1) "phonetic").



(** The word and the entry of a record. *)
Definition recordWord (record : list string) : string := TrimSpace (field record 0).

Definition recordItem (record : list string) : DictItem :=
  newDictItem (recordWord record) record.

(** [record] is accepted and [k] is one of the two keys it is stored under. *)
Definition writes (record : list string) (k : string) : bool :=
  accepted record
  && (bool_decide (k = recordWord record) || bool_decide (k = ToLower (recordWord record))).

(** The last record in source order that writes [k]. *)
Fixpoint lastWriter (k : string) (records : list (list string)) : option (list string) :=
  match records with
  | [] => None
  | record :: rest =>
      match lastWriter k rest with
      | Some later => Some later
      | None => if writes record k then Some record else None
      end
  end.

(** The rule of one line in the words of the specification: nothing for
    a comment, for a line that does not split into exactly two parts on
    [" -> "] and for an empty canonical word; otherwise the canonical
    word (first [/]-token of the left part, trimmed) and the keys (the
    trimmed, non-empty [,]-tokens of the right part). *)
Definition lemmaRule (text : string) : option (string * list string) :=
  let line := TrimSpace text in
  if Strings.HasPrefix line ";" then None else
  match Strings.Split line " -> " with
  | [lhs; rhs] =>
      match Strings.Split lhs "/" with
      | first :: _ =>
          let canonical := TrimSpace first in
          if bool_decide (canonical = "") then None
          else Some (canonical,
                     filter (fun key => key <> "") (TrimSpace <$> Strings.Split rhs ","))
      | [] => None
      end
  | _ => None
  end.

(** Later lines overwrite earlier ones: the canonical word of the last
    rule that lists [k]. *)
Fixpoint lastCanonical (k : string) (rules : list (string * list string)) : option string :=
  match rules with
  | [] => None
  | (canonical, keys) :: rest =>
      match lastCanonical k rest with
      | Some later => Some later
      | None => if bool_decide (k ∈ keys) then Some canonical else None
      end
  end.

(** Steps 2 to 6 of [lookUp] in the specification, over the two maps. *)
Definition specLookUp (byWord : gmap string DictItem) (lemmaToBase : gmap string string)
    (word : string) : option DictItem :=
  let trimmed := TrimSpace word in
  match lemmaToBase !! trimmed with
  | Some base => byWord !! base
  | None => byWord !! trimmed
  end.

(** [LookUp word], called in state [s], returns [result] and leaves the
    package in state [s']: nil for [None], and for [Some item] a pointer
    to a cell that holds [item]. *)
Definition lookUpReturns (word : string) (s : State) (result : option DictItem)
    (s' : State) : Prop :=
  match result with
  | None => LookUp word s = Some (None, s')
  | Some item => exists p, LookUp word s = Some (Some p, s') /\ deref p s' = Some item
  end.

End Vocabulary.

(** ** Sample inputs, all in 7-bit ASCII *)

Module Sample.

Definition row (word phonetic definition : string) : list string :=
  [word; phonetic; definition; "t"; "n"; "0"; "0"; ""; ""; ""; ""; "{}"; ""].

Definition header : list string :=
  ["word"; "phonetic"; "definition"; "translation"; "pos"; "collins"; "oxford";
   "tag"; "bnc"; "frq"; "exchange"; "detail"; "audio"].


Definition lowerCat : list string := row "cat" "k1" "first".
Definition upperCat : list string := row "Cat" "k2" "second".
Definition run : list string := row "run" "r" "move fast\nflow".

Definition assets : Assets :=
  {| ecdictCsv := ReadRecord <$> [header; upperCat; lowerCat; run; ["short"; "row"]];
     lemmaEnTxt := ["; comment"; "run/12 -> runs, running ,ran"; "no arrow";
                    "a -> b -> c"; "Cat -> cat"] |}.

Definition loaded : State :=
  match @init Ascii7.goStrings assets initialState with
  | Some (_, s) => s
  | None => initialState
  end.

End Sample.

(** * Properties *)

(** ** The string functions on small inputs *)

Example Split_arrow :
  Strings.Split "runs/3 -> run, running" " -> " = ["runs/3"; "run, running"].
Proof. reflexivity. Qed.

Example Split_without_separator : Strings.Split "" "," = [""].
Proof. reflexivity. Qed.

Example Split_trailing_separator : Strings.Split "a,b," "," = ["a"; "b"; ""].
Proof. reflexivity. Qed.

Example Split_takes_leftmost : Strings.Split "aaa" "aa" = [""; "a"].
Proof. reflexivity. Qed.

Example trimSpace_both_ends : Ascii7.trimSpace "  a b  " = "a b".
Proof. reflexivity. Qed.

Example toLower_letters_only : Ascii7.toLower "CaT-9" = "cat-9".
Proof. reflexivity. Qed.

Lemma lowerByte_idempotent c : Ascii7.lowerByte (Ascii7.lowerByte c) = Ascii7.lowerByte c.
Proof. destruct c as [[] [] [] [] [] [] [] []]; reflexivity. Qed.

Lemma toLower_idempotent s : Ascii7.toLower (Ascii7.toLower s) = Ascii7.toLower s.
Proof.
  induction s as [|c s IH]; [reflexivity|].
  cbn [Ascii7.toLower]. by rewrite lowerByte_idempotent, IH.
Qed.

(** ** [removeBr] *)

Ltac case_ascii_dec :=
  match goal with
  | |- context [ascii_dec ?a ?b] => destruct (ascii_dec a b) as [<-|]; [|discriminate]
  end.

Lemma string_length_ind (P : string -> Prop) :
  (forall s, (forall t, String.length t < String.length s -> P t) -> P s) ->
  forall s, P s.
Proof.
  intros IH s. remember (String.length s) as n eqn:Hn.
  revert s Hn. induction n as [n IHn] using lt_wf_ind.
  intros s ->. apply IH. intros t Ht. by apply (IHn _ Ht).
Qed.

Lemma prefix_backslash_n s :
  String.prefix backslash_n s = true <-> exists r, s = backslash_n +:+ r.
Proof.
  split.
  - destruct s as [|c [|d r]]; cbn [String.prefix backslash_n]; try discriminate.
    + case_ascii_dec. discriminate.
    + do 2 case_ascii_dec. intros _. by exists r.
  - intros [r ->]. by destruct r.
Qed.

Lemma length_escape r : String.length (backslash_n +:+ r) = S (S (String.length r)).
Proof. reflexivity. Qed.

Lemma occurs_cons pat c s :
  Strings.occurs pat (String c s) = String.prefix pat (String c s) || Strings.occurs pat s.
Proof. reflexivity. Qed.

(** An escape at the front becomes one line break. *)
Lemma removeBr_escape r : removeBr (backslash_n +:+ r) = LF +:+ removeBr r.
Proof. by destruct r. Qed.

(** A byte that does not start an escape is copied. *)
Lemma removeBr_other c s :
  String.prefix backslash_n (String c s) = false ->
  removeBr (String c s) = String c (removeBr s).
Proof.
  intros Hp. unfold removeBr, Strings.ReplaceAll.
  cbn [Strings.replaceFrom]. by rewrite Hp.
Qed.

Lemma removeBr_head c s d t :
  removeBr (String c s) = String d t ->
  d = c \/ (d = ascii_of_nat 10 /\ c = ascii_of_nat 92).
Proof.
  destruct (String.prefix backslash_n (String c s)) eqn:Hp.
  - apply prefix_backslash_n in Hp as [r Hr]. rewrite Hr, removeBr_escape.
    injection Hr as -> _. intros [= <- _]. by right.
  - rewrite (removeBr_other _ _ Hp). intros [= <- _]. by left.
Qed.

(** No escape is left in the result. *)
Lemma removeBr_no_escape s : Strings.occurs backslash_n (removeBr s) = false.
Proof.
  induction s as [s IH] using string_length_ind.
  destruct s as [|c s]; [reflexivity|].
  destruct (String.prefix backslash_n (String c s)) eqn:Hp.
  - apply prefix_backslash_n in Hp as [r Hr]. rewrite Hr, removeBr_escape.
    change (LF +:+ removeBr r) with (String (ascii_of_nat 10) (removeBr r)).
    rewrite occurs_cons, IH; [reflexivity|].
    rewrite Hr, length_escape. lia.
  - rewrite (removeBr_other _ _ Hp), occurs_cons.
    rewrite IH by (simpl; lia). rewrite orb_false_r.
    apply not_true_is_false. intros Hq.
    apply prefix_backslash_n in Hq as [r Hr]. injection Hr as -> Hr.
    destruct s as [|c' s']; [discriminate|].
    destruct (removeBr_head _ _ _ _ Hr) as [<-|[Hd _]]; [|by vm_compute in Hd].
    rewrite (proj2 (prefix_backslash_n _)) in Hp; [discriminate|by exists s'].
Qed.

Lemma occurs_false_cons pat c s :
  Strings.occurs pat (String c s) = false ->
  String.prefix pat (String c s) = false /\ Strings.occurs pat s = false.
Proof. rewrite occurs_cons. by intros [? ?]%orb_false_elim. Qed.

(** A string without escape is left as it is. *)
Lemma removeBr_verbatim s : Strings.occurs backslash_n s = false -> removeBr s = s.
Proof.
  induction s as [|c s IH]; [reflexivity|].
  intros [Hp Ho]%occurs_false_cons.
  by rewrite (removeBr_other _ _ Hp), IH.
Qed.


Example removeBr_two_escapes :
  removeBr "a\nb\\nc" = String "a" (LF +:+ String "b" (String "\" (LF +:+ "c"))).
Proof. reflexivity. Qed.

(** ** The dictionary map

    What [parseDict] leaves under a key is decided by the last record in
    source order that is accepted and stored under that key. *)

Section DictionaryLemmas.
Context {goStrings : GoStrings}.
Implicit Types (record : list string) (records : list (list string)).
Implicit Types (dictMap : gmap string DictItem) (k : string).

Lemma parseDictRecord_accepted record dictMap :
  accepted record = true ->
  parseDictRecord record dictMap =
    <[ToLower (recordWord record) := recordItem record]>
      (<[recordWord record := recordItem record]> dictMap).
Proof.
  unfold accepted, parseDictRecord, recordItem, recordWord. cbn [Word Phonetic newDictItem].
  intros [[-> ->%negb_true_iff]%andb_prop ->%negb_true_iff]%andb_prop.
  reflexivity.
Qed.

Lemma parseDictRecord_rejected record dictMap :
  accepted record = false -> parseDictRecord record dictMap = dictMap.
Proof.
  unfold accepted, parseDictRecord. cbn [Word Phonetic newDictItem].
  destruct (rowElementCount =? length record)%nat; [|reflexivity].
  destruct (String.eqb (TrimSpace (field record 0)) ""); [reflexivity|].
  cbn [negb andb]. by intros ->%negb_false_iff.
Qed.

Lemma parseDictRecord_lookup record dictMap k :
  parseDictRecord record dictMap !! k =
    if writes record k then Some (recordItem record) else dictMap !! k.
Proof.
  unfold writes. destruct (accepted record) eqn:Hacc.
  - rewrite (parseDictRecord_accepted _ _ Hacc). cbn [andb].
    rewrite !lookup_insert.
    repeat case_decide; repeat case_bool_decide; subst; try done.
  - by rewrite (parseDictRecord_rejected _ _ Hacc).
Qed.

Lemma parseDictLoop_lookup records dictMap :
  exists loaded,
    parseDictLoop (ReadRecord <$> records) dictMap = Some loaded /\
    forall k, loaded !! k = match lastWriter k records with
                            | Some record => Some (recordItem record)
                            | None => dictMap !! k
                            end.
Proof.
  revert dictMap. induction records as [|record records IH]; intros dictMap.
  - by exists dictMap.
  - destruct (IH (parseDictRecord record dictMap)) as (loaded & Hrun & Hlook).
    exists loaded. split; [exact Hrun|]. intros k. rewrite Hlook. cbn [lastWriter].
    destruct (lastWriter k records); [reflexivity|].
    rewrite parseDictRecord_lookup. by destruct (writes record k).
Qed.

Lemma parseDictLoop_Some_records reads dictMap loaded :
  parseDictLoop reads dictMap = Some loaded ->
  exists records, reads = ReadRecord <$> records.
Proof.
  revert dictMap. induction reads as [|[record|] reads IH]; intros dictMap Hrun.
  - by exists [].
  - destruct (IH _ Hrun) as [records ->]. by exists (record :: records).
  - discriminate.
Qed.

Lemma lastWriter_Some k records record :
  lastWriter k records = Some record -> record ∈ records /\ writes record k = true.
Proof.
  induction records as [|r records IH]; [discriminate|]. cbn [lastWriter].
  destruct (lastWriter k records) as [later|].
  - intros [= <-]. destruct IH as [Hin Hw]; [reflexivity|]. split; [by right|done].
  - destruct (writes r k) eqn:Hw; [|discriminate]. intros [= <-]. split; [by left|done].
Qed.

Lemma lastWriter_is_Some k records record :
  record ∈ records -> writes record k = true -> is_Some (lastWriter k records).
Proof.
  intros Hin Hw. induction records as [|r records IH]; [by apply elem_of_nil in Hin|].
  cbn [lastWriter]. apply elem_of_cons in Hin as [<-|Hin].
  - destruct (lastWriter k records); [by eexists|]. rewrite Hw. by eexists.
  - destruct (IH Hin) as [later ->]. by eexists.
Qed.

Lemma lastWriter_None k records :
  lastWriter k records = None <-> forall record, record ∈ records -> writes record k = false.
Proof.
  split.
  - intros Hnone record Hin. apply not_true_is_false. intros Hw.
    destruct (lastWriter_is_Some _ _ _ Hin Hw) as [later Hlater]. congruence.
  - intros Hall. destruct (lastWriter k records) as [later|] eqn:Hlast; [|reflexivity].
    apply lastWriter_Some in Hlast as [Hin Hw]. rewrite (Hall _ Hin) in Hw. discriminate.
Qed.

Lemma lastWriter_app k records1 records2 :
  lastWriter k (records1 ++ records2) =
    match lastWriter k records2 with
    | Some later => Some later
    | None => lastWriter k records1
    end.
Proof.
  induction records1 as [|r records1 IH]; cbn [lastWriter app].
  - by destruct (lastWriter k records2).
  - rewrite IH. by destruct (lastWriter k records2).
Qed.

Lemma writes_own_word record :
  accepted record = true -> writes record (recordWord record) = true.
Proof. intros Hacc. unfold writes. rewrite Hacc, bool_decide_true; done. Qed.

Lemma writes_lower_word record :
  accepted record = true -> writes record (ToLower (recordWord record)) = true.
Proof.
  intros Hacc. unfold writes. rewrite Hacc. cbn [andb].
  rewrite (bool_decide_true (ToLower _ = ToLower _)) by done. apply orb_true_r.
Qed.

Lemma writes_inv record k :
  writes record k = true ->
  accepted record = true /\ (k = recordWord record \/ k = ToLower (recordWord record)).
Proof.
  unfold writes. intros [Hacc [Hk|Hk]%orb_prop]%andb_prop; split; try done.
  - left. by apply bool_decide_eq_true in Hk.
  - right. by apply bool_decide_eq_true in Hk.
Qed.


End DictionaryLemmas.

(** ** The lemma map

    What [parseLemma] leaves under a key is the canonical word of the last
    line whose rule lists that key. *)

Section LemmaMapLemmas.
Context {goStrings : GoStrings}.
Implicit Types (lemmaMap : gmap string string) (k text : string).

Lemma parseLemmaParts_lookup originalWord lParts lemmaMap k :
  parseLemmaParts originalWord lParts lemmaMap !! k =
    if bool_decide (k ∈ filter (fun key => key <> "") (TrimSpace <$> lParts))
    then Some originalWord else lemmaMap !! k.
Proof.
  revert lemmaMap. induction lParts as [|lemma lParts IH]; intros lemmaMap.
  - cbn. rewrite bool_decide_false; [done|]. apply not_elem_of_nil.
  - unfold parseLemmaParts in *. cbn [fold_left]. rewrite IH.
    rewrite fmap_cons, filter_cons.
    destruct (String.eqb_spec (TrimSpace lemma) "") as [Hempty|Hfull].
    + by rewrite decide_False by (by intros ?).
    + rewrite decide_True by done.
      destruct (decide (k = TrimSpace lemma)) as [->|Hk].
      * rewrite lookup_insert_eq.
        rewrite (bool_decide_true (_ ∈ _ :: _)) by by left.
        by case_bool_decide.
      * rewrite lookup_insert_ne by done.
        rewrite (bool_decide_ext (k ∈ TrimSpace lemma :: _) (k ∈ filter (fun key => key <> "") (TrimSpace <$> lParts))); [done|].
        rewrite elem_of_cons. split; [by intros [?|?]|by right].
Qed.

Lemma parseLemmaLine_lookup text lemmaMap k :
  parseLemmaLine text lemmaMap !! k =
    match lemmaRule text with
    | Some (canonical, keys) =>
        if bool_decide (k ∈ keys) then Some canonical else lemmaMap !! k
    | None => lemmaMap !! k
    end.
Proof.
  unfold parseLemmaLine, lemmaRule.
  destruct (Strings.HasPrefix (TrimSpace text) ";"); [reflexivity|].
  destruct (Strings.Split (TrimSpace text) " -> ") as [|lhs [|rhs [|extra parts]]];
    try reflexivity.
  cbn [length Nat.eqb negb nth].
  destruct (Strings.Split lhs "/") as [|first rest]; [reflexivity|].
  cbn [length Nat.ltb Nat.leb nth].
  destruct (String.eqb_spec (TrimSpace first) "") as [Hempty|Hfull].
  - by rewrite bool_decide_true.
  - rewrite bool_decide_false by done. apply parseLemmaParts_lookup.
Qed.

Lemma parseLemmaLoop_lookup lines lemmaMap k :
  parseLemmaLoop lines lemmaMap !! k =
    match lastCanonical k (omap lemmaRule lines) with
    | Some canonical => Some canonical
    | None => lemmaMap !! k
    end.
Proof.
  revert lemmaMap. induction lines as [|text lines IH]; intros lemmaMap; [reflexivity|].
  change (parseLemmaLoop (text :: lines) lemmaMap)
    with (parseLemmaLoop lines (parseLemmaLine text lemmaMap)).
  rewrite IH, parseLemmaLine_lookup.
  change (omap lemmaRule (text :: lines))
    with (match lemmaRule text with
          | Some rule => rule :: omap lemmaRule lines
          | None => omap lemmaRule lines
          end).
  destruct (lemmaRule text) as [[canonical keys]|]; [|reflexivity].
  cbn [lastCanonical].
  destruct (lastCanonical k (omap lemmaRule lines)); [reflexivity|].
  by case_bool_decide.
Qed.

Lemma lastCanonical_Some k rules canonical :
  lastCanonical k rules = Some canonical ->
  exists keys, (canonical, keys) ∈ rules /\ k ∈ keys.
Proof.
  induction rules as [|[c keys] rules IH]; [discriminate|]. cbn [lastCanonical].
  destruct (lastCanonical k rules) as [later|].
  - intros [= <-]. destruct IH as (keys' & Hin & Hk); [reflexivity|].
    exists keys'. split; [by right|done].
  - case_bool_decide; [|discriminate]. intros [= <-]. exists keys. split; [by left|done].
Qed.

Lemma lemmaRule_nonempty text canonical keys :
  lemmaRule text = Some (canonical, keys) ->
  canonical <> "" /\ forall k, k ∈ keys -> k <> "".
Proof.
  unfold lemmaRule.
  destruct (Strings.HasPrefix (TrimSpace text) ";"); [discriminate|].
  destruct (Strings.Split (TrimSpace text) " -> ") as [|lhs [|rhs [|extra parts]]];
    try discriminate.
  destruct (Strings.Split lhs "/") as [|first rest]; [discriminate|].
  case_bool_decide; [discriminate|]. intros [= <- <-]. split; [done|].
  intros k Hk. by apply list_elem_of_filter in Hk as [Hk _].
Qed.

End LemmaMapLemmas.

(** ** The package state *)

Section StateLemmas.
Context {goStrings : GoStrings} {assets : Assets}.
Implicit Types (s : State) (word : string).

Lemma withHeap_id s : withHeap (heap s) s = s.
Proof. by destruct s. Qed.

(** [loadDict] in one piece: each map is parsed when it is empty and kept
    otherwise; the heap is not touched. *)
Lemma loadDict_unfold s :
  loadDict s =
    match (if (size (dictMapSingleton s) =? 0)%nat
           then parseDict else Some (dictMapSingleton s)) with
    | None => None
    | Some dictMap =>
        Some (tt, {| dictMapSingleton := dictMap;
                     lemmaMapSingleton :=
                       if (size (lemmaMapSingleton s) =? 0)%nat
                       then parseLemma else lemmaMapSingleton s;
                     heap := heap s |})
    end.
Proof.
  unfold loadDict, bind, get, orFatal, setDictMap, setLemmaMap, ret.
  destruct s as [dictMap lemmaMap cells]. cbn.
  destruct (size dictMap =? 0)%nat; [destruct parseDict as [parsed|]|]; cbn;
    try reflexivity; by destruct (size lemmaMap =? 0)%nat.
Qed.

Lemma loadDict_again s s1 : loadDict s = Some (tt, s1) -> loadDict s1 = Some (tt, s1).
Proof.
  rewrite (loadDict_unfold s), (loadDict_unfold s1).
  destruct (size (dictMapSingleton s) =? 0)%nat eqn:Hd.
  - destruct parseDict as [parsed|] eqn:Hparse; [|discriminate].
    intros [= <-]. cbn.
    destruct (size parsed =? 0)%nat; rewrite ?Hparse;
      destruct (size (lemmaMapSingleton s) =? 0)%nat eqn:Hl; rewrite ?Hl;
      try reflexivity; by destruct (size parseLemma =? 0)%nat.
  - intros [= <-]. cbn. rewrite Hd.
    destruct (size (lemmaMapSingleton s) =? 0)%nat eqn:Hl; rewrite ?Hl;
      try reflexivity; by destruct (size parseLemma =? 0)%nat.
Qed.

Lemma loadDict_withHeap s h :
  loadDict s = Some (tt, s) -> loadDict (withHeap h s) = Some (tt, withHeap h s).
Proof.
  rewrite (loadDict_unfold s), (loadDict_unfold (withHeap h s)). cbn.
  destruct (if (size (dictMapSingleton s) =? 0)%nat then parseDict
            else Some (dictMapSingleton s)) as [dictMap|]; [|discriminate].
  intros [= Hs]. unfold withHeap. rewrite <- Hs at 3 4. reflexivity.
Qed.

Lemma loadDictTimes_loaded n s : loadDict s = Some (tt, s) -> loadDictTimes n s = Some (tt, s).
Proof.
  intros Hload. induction n as [|n IH]; [reflexivity|].
  cbn [loadDictTimes]. unfold bind. by rewrite Hload.
Qed.

(** [LookUp] in one piece. *)
Lemma LookUp_unfold word s :
  LookUp word s =
    match loadDict s with
    | None => None
    | Some (_, s1) =>
        match specLookUp (dictMapSingleton s1) (lemmaMapSingleton s1) word with
        | None => Some (None, s1)
        | Some dictItem =>
            Some (Some (length (heap s1)), withHeap (heap s1 ++ [dictItem]) s1)
        end
    end.
Proof.
  unfold LookUp, bind, specLookUp. destruct (loadDict s) as [[[] s1]|]; [|reflexivity].
  unfold get.
  destruct (lemmaMapSingleton s1 !! TrimSpace word) as [base|];
    by destruct (dictMapSingleton s1 !! _).
Qed.

Lemma lookUpReturns_after_load word s s1 :
  loadDict s = Some (tt, s1) ->
  exists s2,
    lookUpReturns word s (specLookUp (dictMapSingleton s1) (lemmaMapSingleton s1) word) s2 /\
    dictMapSingleton s2 = dictMapSingleton s1 /\
    lemmaMapSingleton s2 = lemmaMapSingleton s1.
Proof.
  intros Hload. unfold lookUpReturns. rewrite LookUp_unfold, Hload.
  destruct (specLookUp _ _ word) as [dictItem|].
  - exists (withHeap (heap s1 ++ [dictItem]) s1). split; [|done].
    eexists. split; [reflexivity|].
    unfold deref, withHeap. cbn [heap]. by rewrite list_lookup_middle.
  - by exists s1.
Qed.

Lemma lookUpReturns_functional word s result1 s1 result2 s2 :
  lookUpReturns word s result1 s1 -> lookUpReturns word s result2 s2 -> result1 = result2.
Proof.
  unfold lookUpReturns.
  destruct result1 as [item1|], result2 as [item2|]; try done.
  - intros (p1 & Hrun1 & Hcell1) (p2 & Hrun2 & Hcell2).
    rewrite Hrun1 in Hrun2. injection Hrun2 as <- <-. congruence.
  - intros (p1 & Hrun1 & _) Hrun2. congruence.
  - intros Hrun1 (p2 & Hrun2 & _). congruence.
Qed.

(** Blanks around the word do not matter: only the trimmed word is used. *)
Lemma LookUp_trimmed_word word1 word2 s :
  TrimSpace word1 = TrimSpace word2 -> LookUp word1 s = LookUp word2 s.
Proof.
  intros Htrim. rewrite !LookUp_unfold. unfold specLookUp. by rewrite Htrim.
Qed.

Lemma LookUp_keeps_loaded word s r s' :
  loadDict s = Some (tt, s) -> LookUp word s = Some (r, s') -> loadDict s' = Some (tt, s').
Proof.
  intros Hload. rewrite LookUp_unfold, Hload.
  destruct (specLookUp _ _ word) as [dictItem|]; intros [= <- <-]; [|exact Hload].
  by apply loadDict_withHeap.
Qed.

Lemma reachable_loaded s : reachable s -> loadDict s = Some (tt, s).
Proof.
  induction 1 as [s Hinit|s word r s' _ IH Hlook|s p item _ IH].
  - exact (loadDict_again initialState s Hinit).
  - exact (LookUp_keeps_loaded _ _ _ _ IH Hlook).
  - exact (loadDict_withHeap s (<[p := item]> (heap s)) IH).
Qed.

End StateLemmas.

(** * The claims *)

(** C1. [LookUp w] trims [w] once, replaces the trimmed word by its base
    word when the lemma map has it as a key (the base word is used as it
    is) and keeps it otherwise, and looks the result up in the dictionary
    map: once [loadDict] has run, [LookUp] returns what [specLookUp] gives
    on the two maps, a pointer to the entry when there is one and nil when
    there is none, and leaves the two maps as [loadDict] left them.  When
    [loadDict] ends the process, so does [LookUp]. *)
Theorem LookUp_refines_specLookUp {goStrings : GoStrings} {assets : Assets}
    (word : string) (s : State) :
  match loadDict s with
  | None => LookUp word s = None
  | Some (_, s1) =>
      exists s2,
        lookUpReturns word s
          (specLookUp (dictMapSingleton s1) (lemmaMapSingleton s1) word) s2 /\
        dictMapSingleton s2 = dictMapSingleton s1 /\
        lemmaMapSingleton s2 = lemmaMapSingleton s1
  end.
Proof.
  destruct (loadDict s) as [[[] s1]|] eqn:Hload.
  - by apply lookUpReturns_after_load.
  - by rewrite LookUp_unfold, Hload.
Qed.

(** C2. Lemma before literal: when the trimmed word is a key of both maps,
    [LookUp] returns the dictionary entry of the base word (nil if the base
    word is no key), whatever is stored under the trimmed word itself; so
    when the two entries differ, the one stored under the trimmed word is
    not returned.  The trimmed word itself is looked up when the lemma map
    has no mapping for it. *)
Theorem LookUp_lemma_before_literal {goStrings : GoStrings} {assets : Assets}
    (word : string) (s s1 : State) :
  loadDict s = Some (tt, s1) ->
  (forall base,
      lemmaMapSingleton s1 !! TrimSpace word = Some base ->
      is_Some (dictMapSingleton s1 !! TrimSpace word) ->
      (exists s2, lookUpReturns word s (dictMapSingleton s1 !! base) s2) /\
      (dictMapSingleton s1 !! base <> dictMapSingleton s1 !! TrimSpace word ->
       forall s2, ~ lookUpReturns word s (dictMapSingleton s1 !! TrimSpace word) s2)) /\
  (lemmaMapSingleton s1 !! TrimSpace word = None ->
   exists s2, lookUpReturns word s (dictMapSingleton s1 !! TrimSpace word) s2).
Proof.
  intros Hload.
  destruct (lookUpReturns_after_load word s s1 Hload) as (s2 & Hret & _).
  unfold specLookUp in Hret. split.
  - intros base Hbase _. rewrite Hbase in Hret. split; [by exists s2|].
    intros Hne s3 Hret3. apply Hne.
    exact (lookUpReturns_functional _ _ _ _ _ _ Hret Hret3).
  - intros Hnone. rewrite Hnone in Hret. by exists s2.
Qed.


(** C4. [parseLemma] goes through its lines in order; a line contributes
    its rule ([lemmaRule]: nothing for a comment, for a line that does not
    split into exactly two parts on [" -> "] and for an empty canonical
    word), every key of a rule is mapped to the canonical word of the rule,
    and a later line overwrites an earlier one.  In the resulting map no
    key and no value is empty. *)
Theorem parseLemma_last_rule_wins {goStrings : GoStrings} {assets : Assets} (k : string) :
  parseLemma !! k = lastCanonical k (omap lemmaRule lemmaEnTxt) /\
  (forall canonical, parseLemma !! k = Some canonical -> k <> "" /\ canonical <> "").
Proof.
  assert (parseLemma !! k = lastCanonical k (omap lemmaRule lemmaEnTxt)) as Hlook.
  { unfold parseLemma. rewrite parseLemmaLoop_lookup, lookup_empty.
    by destruct (lastCanonical _ _). }
  split; [exact Hlook|]. intros canonical. rewrite Hlook.
  intros (keys & Hin & Hk)%lastCanonical_Some.
  apply list_elem_of_omap in Hin as (text & _ & Hrule).
  apply lemmaRule_nonempty in Hrule as [Hc Hkeys]. split; [by apply Hkeys|done].
Qed.

(** C5, amended.  Take two accepted records whose words differ and have
    the same lowercase form, [earlier] before [later] in source order, and
    let no record after [earlier] other than [later] be stored under the
    word of [earlier], and no record after [later] under the word of
    [later] or under the shared lowercase form.  After loading, the
    lowercase key and the exact-case key of [later] hold the entry of
    [later].  The exact-case key of [earlier] holds the entry of [earlier]
    when that word is not its own lowercase form; when it is, [later] has
    overwritten it and the key holds the entry of [later]. *)
Theorem case_variants_last_writer_wins {goStrings : GoStrings}
    (before between after : list (list string)) (earlier later : list string) :
  accepted earlier = true ->
  accepted later = true ->
  recordWord earlier <> recordWord later ->
  ToLower (recordWord earlier) = ToLower (recordWord later) ->
  lastWriter (recordWord earlier) (between ++ after) = None ->
  lastWriter (recordWord later) after = None ->
  lastWriter (ToLower (recordWord later)) after = None ->
  exists dictMap,
    parseDictLoop (ReadRecord <$> (before ++ earlier :: between ++ later :: after)) ∅
      = Some dictMap /\
    dictMap !! ToLower (recordWord later) = Some (recordItem later) /\
    dictMap !! recordWord later = Some (recordItem later) /\
    dictMap !! recordWord earlier =
      Some (if bool_decide (recordWord earlier = ToLower (recordWord earlier))
            then recordItem later else recordItem earlier).
Proof.
  intros Hacc1 Hacc2 Hne Hlow Hfree1 Hfree2 HfreeL.
  destruct (parseDictLoop_lookup (before ++ earlier :: between ++ later :: after) ∅)
    as (dictMap & Hrun & Hlook).
  exists dictMap. split; [exact Hrun|].
  rewrite !Hlook.
  rewrite !lastWriter_app. cbn [lastWriter]. rewrite !lastWriter_app. cbn [lastWriter].
  rewrite lastWriter_app in Hfree1.
  destruct (lastWriter (recordWord earlier) after) eqn:Hafter1; [discriminate|].
  rewrite Hfree1, Hfree2, HfreeL.
  rewrite (writes_own_word _ Hacc2), (writes_lower_word _ Hacc2).
  repeat split.
  unfold writes at 1. rewrite Hacc2. cbn [andb].
  rewrite (bool_decide_false (recordWord earlier = recordWord later)) by done.
  cbn [orb]. rewrite <- Hlow. case_bool_decide; [reflexivity|].
  by rewrite (writes_own_word _ Hacc1).
Qed.


(** C7. [loadDict] is idempotent: called any positive number of times in a
    row it leaves the state (and ends the process or not) as one call
    does, and when both maps are non-empty a call changes nothing. *)
Theorem loadDict_idempotent {goStrings : GoStrings} {assets : Assets} (s : State) :
  (forall n, loadDictTimes (S n) s = loadDict s) /\
  (size (dictMapSingleton s) <> 0 -> size (lemmaMapSingleton s) <> 0 ->
   loadDict s = Some (tt, s)).
Proof.
  split.
  - intros n. cbn [loadDictTimes]. unfold bind.
    destruct (loadDict s) as [[[] s1]|] eqn:Hload; [|reflexivity].
    apply loadDictTimes_loaded. exact (loadDict_again _ _ Hload).
  - intros Hdict Hlemma. rewrite loadDict_unfold.
    apply Nat.eqb_neq in Hdict, Hlemma. rewrite Hdict, Hlemma. by destruct s.
Qed.

(** C8. The pointer [LookUp] returns is the address of a copy: assigning
    through it changes the cell it points to and neither of the two maps,
    and a further [LookUp] of the same word returns a pointer to another
    cell, which holds the entry with its original field values. *)
Theorem LookUp_returns_a_copy {goStrings : GoStrings} {assets : Assets}
    (word : string) (s s1 : State) (p : ptr) :
  LookUp word s = Some (Some p, s1) ->
  exists item,
    deref p s1 = Some item /\
    forall item',
      dictMapSingleton (store p item' s1) = dictMapSingleton s1 /\
      lemmaMapSingleton (store p item' s1) = lemmaMapSingleton s1 /\
      deref p (store p item' s1) = Some item' /\
      exists q s3,
        LookUp word (store p item' s1) = Some (Some q, s3) /\
        deref q s3 = Some item /\
        q <> p /\
        deref p s3 = Some item'.
Proof.
  rewrite LookUp_unfold.
  destruct (loadDict s) as [[[] sL]|] eqn:Hload; [|discriminate].
  destruct (specLookUp _ _ word) as [item|] eqn:Hspec; [|discriminate].
  intros [= <- <-]. exists item.
  assert (forall (cells : list DictItem) (x : DictItem),
             (cells ++ [x]) !! length cells = Some x) as Hlast.
  { intros cells x. by rewrite list_lookup_middle. }
  split; [apply Hlast|].
  intros item'. split; [reflexivity|]. split; [reflexivity|].
  set (cells := <[length (heap sL) := item']> (heap sL ++ [item])).
  assert (length (heap sL) < length cells) as Hlen.
  { unfold cells. rewrite length_insert, length_app. cbn. lia. }
  assert (cells !! length (heap sL) = Some item') as Hcell.
  { unfold cells. apply list_lookup_insert_eq. rewrite length_app. cbn. lia. }
  split; [exact Hcell|].
  change (store (length (heap sL)) item' (withHeap (heap sL ++ [item]) sL))
    with (withHeap cells sL).
  rewrite LookUp_unfold.
  rewrite (loadDict_withHeap sL cells (loadDict_again _ _ Hload)).
  cbn [withHeap dictMapSingleton lemmaMapSingleton heap]. rewrite Hspec.
  eexists _, _. split; [reflexivity|].
  unfold deref. cbn [withHeap heap].
  split; [apply Hlast|]. split; [lia|].
  by rewrite lookup_app_l.
Qed.

(** C9. In every state the package can reach, a [LookUp] of a word that,
    trimmed and resolved through the lemma map, is no key of the
    dictionary map returns nil, does not end the process, and leaves the
    state, the two maps included, as it was. *)
Theorem failed_LookUp_returns_nil {goStrings : GoStrings} {assets : Assets}
    (word : string) (s : State) :
  reachable s ->
  specLookUp (dictMapSingleton s) (lemmaMapSingleton s) word = None ->
  LookUp word s = Some (None, s).
Proof.
  intros Hreach Hmiss.
  by rewrite LookUp_unfold, (reachable_loaded s Hreach), Hmiss.
Qed.

(** C10. The key set of the map [parseDict] builds is closed under
    lowercasing: with every key, the lowercase form of that key is a key.
    [strings.ToLower] enters through the one property that lowercasing a
    lowercase form changes nothing. *)
Theorem dict_keys_closed_under_ToLower {goStrings : GoStrings} {assets : Assets}
    (dictMap : gmap string DictItem) (k : string) :
  (forall s, ToLower (ToLower s) = ToLower s) ->
  parseDict = Some dictMap ->
  is_Some (dictMap !! k) ->
  is_Some (dictMap !! ToLower k).
Proof.
  intros Hidem Hparse. unfold parseDict in Hparse.
  destruct (parseDictLoop_Some_records _ _ _ Hparse) as [records Hreads].
  rewrite Hreads in Hparse.
  destruct (parseDictLoop_lookup records ∅) as (loaded & Hrun & Hlook).
  rewrite Hrun in Hparse. injection Hparse as ->.
  rewrite !Hlook.
  destruct (lastWriter k records) as [record|] eqn:Hlast;
    [|rewrite lookup_empty; by intros [? ?]].
  intros _. apply lastWriter_Some in Hlast as [Hin Hw].
  apply writes_inv in Hw as [Hacc Hk].
  assert (ToLower k = ToLower (recordWord record)) as ->.
  { destruct Hk as [->| ->]; [reflexivity|apply Hidem]. }
  destruct (lastWriter_is_Some _ _ _ Hin (writes_lower_word _ Hacc)) as [r ->]. by eexists.
Qed.

(** * Further properties of ecdict.go *)

(** ** [toMap] *)

Lemma toMap_fields d m :
  toMap (Some d) = Some m ->
  (fun k => m !! k) <$> toMapKeys =
    Some <$> [Word d; Phonetic d; Definition_ d; Translation d; Pos d; Collins d;
              Oxford d; Tag d; Bnc d; Frq d; Exchange d; Detail d; Audio d].
Proof. intros [= <-]. reflexivity. Qed.

(** X1. [toMap] of the nil receiver is the nil map.  Of a struct it is a
    map with exactly 13 keys, under which the 13 fields are read back in
    the order of the struct; so two structs with the same map are equal. *)
Theorem toMap_keeps_every_field :
  toMap None = None /\
  (forall d, exists m,
      toMap (Some d) = Some m /\
      size m = 13 /\
      (fun k => m !! k) <$> toMapKeys =
        Some <$> [Word d; Phonetic d; Definition_ d; Translation d; Pos d; Collins d;
                  Oxford d; Tag d; Bnc d; Frq d; Exchange d; Detail d; Audio d]) /\
  (forall d1 d2, toMap (Some d1) = toMap (Some d2) -> d1 = d2).
Proof.
  split; [reflexivity|]. split.
  - intros d. eexists. split; [reflexivity|]. split; [|reflexivity].
    destruct d. vm_compute. reflexivity.
  - intros d1 d2 Heq.
    destruct (toMap (Some d2)) as [m|] eqn:H2; [|discriminate].
    pose proof (toMap_fields _ _ Heq) as F1. pose proof (toMap_fields _ _ H2) as F2.
    rewrite F1 in F2. destruct d1, d2. cbn in F2. by injection F2 as -> -> -> -> -> -> -> -> -> -> -> -> ->.
Qed.

(** ** [removeBr], again *)

Lemma removeBr_idempotent s : removeBr (removeBr s) = removeBr s.
Proof. apply removeBr_verbatim, removeBr_no_escape. Qed.

Lemma removeBr_length s : String.length (removeBr s) <= String.length s.
Proof.
  induction s as [s IH] using string_length_ind.
  destruct s as [|c s]; [reflexivity|].
  destruct (String.prefix backslash_n (String c s)) eqn:Hp.
  - apply prefix_backslash_n in Hp as [r Hr]. rewrite Hr, removeBr_escape, length_escape.
    change (LF +:+ removeBr r) with (String (ascii_of_nat 10) (removeBr r)).
    cbn [String.length]. specialize (IH r). rewrite Hr, length_escape in IH. lia.
  - rewrite (removeBr_other _ _ Hp). cbn [String.length].
    specialize (IH s). cbn [String.length] in IH. lia.
Qed.

(** X2. Decoding is idempotent, since a decoded string holds no escape,
    and it never makes a string longer. *)
Theorem removeBr_decodes_once (s : string) :
  removeBr (removeBr s) = removeBr s /\
  String.length (removeBr s) <= String.length s.
Proof. split; [apply removeBr_idempotent|apply removeBr_length]. Qed.

(** ** [parseDict] and [parseLemma], again *)

Section MoreDictionary.
Context {goStrings : GoStrings}.

Lemma parseDictLoop_None reads dictMap :
  parseDictLoop reads dictMap = None <-> ReadError ∈ reads.
Proof.
  revert dictMap. induction reads as [|[record|] reads IH]; intros dictMap; cbn [parseDictLoop].
  - split; [discriminate|]. by intros ?%elem_of_nil.
  - rewrite IH. split; [by right|]. by intros [?|?]%elem_of_cons.
  - split; [by left|done].
Qed.


Lemma recordItem_Word record : Word (recordItem record) = recordWord record.
Proof. reflexivity. Qed.

Lemma accepted_inv record :
  accepted record = true ->
  recordWord record <> "" /\
  ~ (recordWord record = "word" /\ Phonetic (recordItem record) = "phonetic").
Proof.
  unfold accepted, recordWord.
  intros [[_ Hword%negb_true_iff]%andb_prop Hhead%negb_true_iff]%andb_prop.
  apply String.eqb_neq in Hword. split; [exact Hword|].
  intros [Hw Hp]. cbn in Hp. rewrite Hw, Hp in Hhead. discriminate.
Qed.

End MoreDictionary.

(** X3. [loadDict] ends the process exactly when the dictionary map is
    empty, so that the csv is parsed, and the reader reports an error
    before the end of the input; [LookUp] ends the process exactly when
    its [loadDict] does. *)
Theorem loadDict_exits_on_read_error {goStrings : GoStrings} {assets : Assets}
    (s : State) (word : string) :
  (loadDict s = None <-> size (dictMapSingleton s) = 0 /\ ReadError ∈ ecdictCsv) /\
  (LookUp word s = None <-> loadDict s = None).
Proof.
  split.
  - rewrite loadDict_unfold. destruct (size (dictMapSingleton s) =? 0)%nat eqn:Hsize.
    + apply Nat.eqb_eq in Hsize. unfold parseDict.
      destruct (parseDictLoop ecdictCsv ∅) as [parsed|] eqn:Hparse.
      * split; [discriminate|]. intros [_ Herr].
        apply (parseDictLoop_None ecdictCsv ∅) in Herr. congruence.
      * split; [|done]. intros _. split; [exact Hsize|]. by apply parseDictLoop_None in Hparse.
    + apply Nat.eqb_neq in Hsize. split; [discriminate|]. by intros [? _].
  - rewrite LookUp_unfold. destruct (loadDict s) as [[[] s1]|]; [|done].
    destruct (specLookUp _ _ word); split; discriminate.
Qed.

(** X4. Every entry of the map [parseDict] returns has a non-empty word,
    is stored under that word or under its lowercase form, and is not the
    header (word ["word"] with phonetic ["phonetic"]). *)
Theorem dict_entries_are_keyed_by_their_word {goStrings : GoStrings} {assets : Assets}
    (dictMap : gmap string DictItem) (k : string) (item : DictItem) :
  parseDict = Some dictMap ->
  dictMap !! k = Some item ->
  Word item <> "" /\
  (k = Word item \/ k = ToLower (Word item)) /\
  ~ (Word item = "word" /\ Phonetic item = "phonetic").
Proof.
  intros Hparse Hk. unfold parseDict in Hparse.
  destruct (parseDictLoop_Some_records _ _ _ Hparse) as [records Hreads].
  rewrite Hreads in Hparse.
  destruct (parseDictLoop_lookup records ∅) as (loaded & Hrun & Hlook).
  rewrite Hrun in Hparse. injection Hparse as ->.
  rewrite Hlook in Hk.
  destruct (lastWriter k records) as [record|] eqn:Hlast; [|by rewrite lookup_empty in Hk].
  injection Hk as <-. apply lastWriter_Some in Hlast as [_ Hw].
  apply writes_inv in Hw as [Hacc Hkey].
  destruct (accepted_inv _ Hacc) as [Hne Hhead]. rewrite recordItem_Word. done.
Qed.


(** X6. The last accepted record stored under a key decides the entry of
    that key, whatever comes before it. *)
Theorem parseDict_last_record_wins {goStrings : GoStrings}
    (before after : list (list string)) (record : list string) (k : string) :
  accepted record = true ->
  k = recordWord record \/ k = ToLower (recordWord record) ->
  (forall later, later ∈ after -> writes later k = false) ->
  exists dictMap,
    parseDictLoop (ReadRecord <$> (before ++ record :: after)) ∅ = Some dictMap /\
    dictMap !! k = Some (recordItem record).
Proof.
  intros Hacc Hkey Hafter.
  destruct (parseDictLoop_lookup (before ++ record :: after) ∅) as (dictMap & Hrun & Hlook).
  exists dictMap. split; [exact Hrun|].
  rewrite Hlook, lastWriter_app. cbn [lastWriter].
  rewrite (proj2 (lastWriter_None k after) Hafter).
  assert (writes record k = true) as ->; [|reflexivity].
  destruct Hkey as [-> | ->]; [by apply writes_own_word|by apply writes_lower_word].
Qed.

Section MoreLemmaMap.
Context {goStrings : GoStrings}.

Lemma parseLemmaLine_no_rule text lemmaMap :
  lemmaRule text = None -> parseLemmaLine text lemmaMap = lemmaMap.
Proof.
  intros Hrule. apply map_eq. intros k. by rewrite parseLemmaLine_lookup, Hrule.
Qed.

Lemma parseLemmaLoop_cons text lines lemmaMap :
  parseLemmaLoop (text :: lines) lemmaMap = parseLemmaLoop lines (parseLemmaLine text lemmaMap).
Proof. reflexivity. Qed.

End MoreLemmaMap.

(** X7. Comments and the other lines without a rule do not matter: the
    lemma map is that of the lines with a rule alone. *)
Theorem parseLemma_ignores_lines_without_rule {goStrings : GoStrings}
    (lines : list string) (lemmaMap : gmap string string) :
  parseLemmaLoop lines lemmaMap =
  parseLemmaLoop (filter (fun text => is_Some (lemmaRule text)) lines) lemmaMap.
Proof.
  revert lemmaMap. induction lines as [|text lines IH]; intros lemmaMap; [reflexivity|].
  rewrite filter_cons. destruct (decide (is_Some (lemmaRule text))) as [Hrule|Hnone].
  - rewrite !parseLemmaLoop_cons. apply IH.
  - rewrite parseLemmaLoop_cons, parseLemmaLine_no_rule; [apply IH|].
    by apply eq_None_not_Some.
Qed.

(** ** The package after [init] *)

Section MoreState.
Context {goStrings : GoStrings} {assets : Assets}.
Implicit Types (s : State) (word : string).

Lemma parseDict_records dictMap :
  parseDict = Some dictMap ->
  exists records,
    ecdictCsv = ReadRecord <$> records /\
    forall k, dictMap !! k = recordItem <$> lastWriter k records.
Proof.
  intros Hparse. unfold parseDict in Hparse.
  destruct (parseDictLoop_Some_records _ _ _ Hparse) as [records Hreads].
  exists records. split; [exact Hreads|]. rewrite Hreads in Hparse.
  destruct (parseDictLoop_lookup records ∅) as (loaded & Hrun & Hlook).
  rewrite Hrun in Hparse. injection Hparse as ->.
  intros k. rewrite Hlook. destruct (lastWriter k records); [reflexivity|apply lookup_empty].
Qed.

Lemma parseDict_entry dictMap k item :
  parseDict = Some dictMap ->
  dictMap !! k = Some item ->
  exists record,
    ReadRecord record ∈ ecdictCsv /\ accepted record = true /\
    (k = recordWord record \/ k = ToLower (recordWord record)) /\
    item = recordItem record.
Proof.
  intros Hparse Hk. destruct (parseDict_records _ Hparse) as (records & Hreads & Hlook).
  rewrite Hlook in Hk.
  destruct (lastWriter k records) as [record|] eqn:Hlast; [|discriminate].
  injection Hk as <-. apply lastWriter_Some in Hlast as [Hin Hw].
  apply writes_inv in Hw as [Hacc Hkey].
  exists record. rewrite Hreads. split; [|done].
  apply list_elem_of_fmap. by exists record.
Qed.

Lemma reachable_maps s :
  reachable s -> parseDict = Some (dictMapSingleton s) /\ lemmaMapSingleton s = parseLemma.
Proof.
  induction 1 as [s Hinit|s word r s' Hreach IH Hlook|s p item _ IH].
  - unfold init in Hinit. rewrite loadDict_unfold in Hinit.
    cbn [initialState dictMapSingleton lemmaMapSingleton heap] in Hinit.
    rewrite !map_size_empty in Hinit. cbn [Nat.eqb] in Hinit.
    destruct parseDict as [parsed|]; [|discriminate].
    by injection Hinit as <-.
  - rewrite LookUp_unfold, (reachable_loaded s Hreach) in Hlook.
    destruct (specLookUp _ _ word); by injection Hlook as <- <-.
  - exact IH.
Qed.

Lemma LookUp_loaded word s :
  loadDict s = Some (tt, s) ->
  exists s',
    lookUpReturns word s (specLookUp (dictMapSingleton s) (lemmaMapSingleton s) word) s' /\
    dictMapSingleton s' = dictMapSingleton s /\
    lemmaMapSingleton s' = lemmaMapSingleton s /\
    forall q, q < length (heap s) -> deref q s' = deref q s.
Proof.
  intros Hload. unfold lookUpReturns. rewrite LookUp_unfold, Hload.
  destruct (specLookUp _ _ word) as [dictItem|].
  - exists (withHeap (heap s ++ [dictItem]) s). split; [|split; [done|split; [done|]]].
    + eexists. split; [reflexivity|].
      unfold deref, withHeap. cbn [heap]. by rewrite list_lookup_middle.
    + intros q Hq. unfold deref, withHeap. cbn [heap]. by rewrite lookup_app_l.
  - by exists s.
Qed.

End MoreState.

(** X8. After [init], whatever callers do, the dictionary map is the one
    [parseDict] returns, the lemma map the one [parseLemma] returns, and a
    further [loadDict] changes nothing. *)
Theorem maps_fixed_after_init {goStrings : GoStrings} {assets : Assets} (s : State) :
  reachable s ->
  parseDict = Some (dictMapSingleton s) /\
  lemmaMapSingleton s = parseLemma /\
  loadDict s = Some (tt, s).
Proof.
  intros Hreach. destruct (reachable_maps s Hreach) as [Hdict Hlemma].
  split; [exact Hdict|]. split; [exact Hlemma|]. by apply reachable_loaded.
Qed.

(** X9. After [init] no [LookUp] ends the process: it returns what
    [specLookUp] gives on the two maps, leaves the two maps as they are
    and leaves every cell handed out before as it is. *)
Theorem LookUp_never_exits_after_init {goStrings : GoStrings} {assets : Assets}
    (word : string) (s : State) :
  reachable s ->
  exists s',
    lookUpReturns word s (specLookUp (dictMapSingleton s) (lemmaMapSingleton s) word) s' /\
    dictMapSingleton s' = dictMapSingleton s /\
    lemmaMapSingleton s' = lemmaMapSingleton s /\
    forall q, q < length (heap s) -> deref q s' = deref q s.
Proof. intros Hreach. apply LookUp_loaded. by apply reachable_loaded. Qed.

(** X10. An accepted record of the csv is found under its word and under
    the lowercase form of its word, unless the lemma map redirects that
    key: [LookUp] returns an entry, and that entry is stored under the
    key asked for. *)
Theorem accepted_record_is_found {goStrings : GoStrings} {assets : Assets}
    (record : list string) (word : string) (s : State) :
  reachable s ->
  ReadRecord record ∈ ecdictCsv ->
  accepted record = true ->
  TrimSpace word = recordWord record \/ TrimSpace word = ToLower (recordWord record) ->
  lemmaMapSingleton s !! TrimSpace word = None ->
  exists p s' item,
    LookUp word s = Some (Some p, s') /\
    deref p s' = Some item /\
    (TrimSpace word = Word item \/ TrimSpace word = ToLower (Word item)).
Proof.
  intros Hreach Hin Hacc Hword Hlemma.
  destruct (reachable_maps s Hreach) as [Hparse _].
  destruct (parseDict_records _ Hparse) as (records & Hreads & Hlook).
  rewrite Hreads in Hin. apply list_elem_of_fmap in Hin as (record' & [= <-] & Hin).
  assert (writes record (TrimSpace word) = true) as Hw.
  { destruct Hword as [-> | ->]; [by apply writes_own_word|by apply writes_lower_word]. }
  destruct (lastWriter_is_Some _ _ _ Hin Hw) as [last Hlast].
  destruct (LookUp_loaded word s (reachable_loaded s Hreach)) as (s' & Hret & _).
  unfold specLookUp in Hret. rewrite Hlemma, Hlook, Hlast in Hret.
  destruct Hret as (p & Hrun & Hcell).
  exists p, s', (recordItem last). split; [exact Hrun|]. split; [exact Hcell|].
  apply lastWriter_Some in Hlast as [_ Hwl]. by apply writes_inv in Hwl as [_ Hkey].
Qed.

(** X11. A word that the lemma map sends to a base word without mapping of
    its own gives what the base word gives. *)
Theorem inflected_form_gives_base_entry {goStrings : GoStrings} {assets : Assets}
    (inflected base : string) (s : State) :
  reachable s ->
  lemmaMapSingleton s !! TrimSpace inflected = Some (TrimSpace base) ->
  lemmaMapSingleton s !! TrimSpace base = None ->
  LookUp inflected s = LookUp base s.
Proof.
  intros Hreach Hinfl Hbase. rewrite !LookUp_unfold, (reachable_loaded s Hreach).
  unfold specLookUp. by rewrite Hinfl, Hbase.
Qed.

(** X12. An entry that [LookUp] returns is the entry of a record of the
    csv, has a non-empty word, and the word asked for, trimmed and
    resolved through the lemma map, is that word or its lowercase form. *)
Theorem LookUp_entry_matches_resolved_word {goStrings : GoStrings} {assets : Assets}
    (word : string) (s s' : State) (p : ptr) (item : DictItem) :
  reachable s ->
  LookUp word s = Some (Some p, s') ->
  deref p s' = Some item ->
  let resolved := match lemmaMapSingleton s !! TrimSpace word with
                  | Some base => base
                  | None => TrimSpace word
                  end in
  Word item <> "" /\
  (resolved = Word item \/ resolved = ToLower (Word item)) /\
  exists record, ReadRecord record ∈ ecdictCsv /\ item = recordItem record.
Proof.
  intros Hreach Hrun Hcell resolved.
  destruct (reachable_maps s Hreach) as [Hparse _].
  rewrite LookUp_unfold, (reachable_loaded s Hreach) in Hrun.
  destruct (specLookUp _ _ word) as [dictItem|] eqn:Hspec; [|discriminate].
  injection Hrun as <- <-.
  unfold deref, withHeap in Hcell. cbn [heap] in Hcell.
  rewrite list_lookup_middle in Hcell by reflexivity. injection Hcell as ->.
  assert (dictMapSingleton s !! resolved = Some item) as Hentry.
  { unfold specLookUp in Hspec. unfold resolved.
    by destruct (lemmaMapSingleton s !! TrimSpace word). }
  destruct (parseDict_entry _ _ _ Hparse Hentry) as (record & Hin & Hacc & Hkey & ->).
  destruct (accepted_inv _ Hacc) as [Hne _].
  split; [exact Hne|]. split; [exact Hkey|]. by exists record.
Qed.

(** * The claims on the sample input

    From here on the string interface is its 7-bit instance and the
    embedded files are those of [Sample]. *)

#[local] Existing Instance Ascii7.goStrings.
#[local] Existing Instance Sample.assets.

Lemma Sample_loaded : loadDict initialState = Some (tt, Sample.loaded).
Proof. vm_compute. reflexivity. Qed.

Lemma Sample_reachable : reachable Sample.loaded.
Proof. apply reachable_init. exact Sample_loaded. Qed.

Example Sample_lemma_entries :
  map_to_list (lemmaMapSingleton Sample.loaded)
  = [("cat", "Cat"); ("runs", "run"); ("running", "run"); ("ran", "run")].
Proof. vm_compute. reflexivity. Qed.

Example Sample_dict_keys :
  (map fst (map_to_list (dictMapSingleton Sample.loaded)) : list string) = ["cat"; "Cat"; "run"].
Proof. vm_compute. reflexivity. Qed.

(** An inflected form with blanks around it resolves to the entry of its
    base word, whose definition has its escape decoded. *)
Example Sample_LookUp_running :
  exists s',
    LookUp " running " Sample.loaded = Some (Some 0, s') /\
    (Definition_ <$> deref 0 s') = Some ("move fast" +:+ LF +:+ "flow").
Proof. eexists. split; vm_compute; reflexivity. Qed.

(** C2 on the sample: ["cat"] is a key of both maps, the lemma map sends
    it to ["Cat"], and the entry of ["Cat"] is returned, not the one
    stored under ["cat"]. *)
Lemma LookUp_lemma_before_literal_witness :
  loadDict initialState = Some (tt, Sample.loaded) /\
  lemmaMapSingleton Sample.loaded !! TrimSpace " cat " = Some "Cat" /\
  is_Some (dictMapSingleton Sample.loaded !! TrimSpace " cat ") /\
  dictMapSingleton Sample.loaded !! "Cat" <> dictMapSingleton Sample.loaded !! TrimSpace " cat " /\
  (exists s2, lookUpReturns " cat " initialState (dictMapSingleton Sample.loaded !! "Cat") s2) /\
  (forall s2, ~ lookUpReturns " cat " initialState
                 (dictMapSingleton Sample.loaded !! TrimSpace " cat ") s2).
Proof.
  assert (lemmaMapSingleton Sample.loaded !! TrimSpace " cat " = Some "Cat") as Hbase
    by (vm_compute; reflexivity).
  assert (is_Some (dictMapSingleton Sample.loaded !! TrimSpace " cat ")) as Hkey
    by (vm_compute; eexists; reflexivity).
  assert (dictMapSingleton Sample.loaded !! "Cat"
          <> dictMapSingleton Sample.loaded !! TrimSpace " cat ") as Hne
    by (vm_compute; discriminate).
  destruct (LookUp_lemma_before_literal " cat " initialState Sample.loaded Sample_loaded)
    as [Hlemma _].
  destruct (Hlemma "Cat" Hbase Hkey) as [Hreturns Hnever].
  split; [exact Sample_loaded|]. split; [exact Hbase|]. split; [exact Hkey|].
  split; [exact Hne|]. split; [exact Hreturns|exact (Hnever Hne)].
Defined.


(** C5 on the sample: ["Cat"] comes before ["cat"]; the lowercase key holds
    the later record and ["Cat"] keeps its own. *)
Lemma case_variants_last_writer_wins_witness :
  accepted Sample.upperCat = true /\
  accepted Sample.lowerCat = true /\
  recordWord Sample.upperCat <> recordWord Sample.lowerCat /\
  ToLower (recordWord Sample.upperCat) = ToLower (recordWord Sample.lowerCat) /\
  lastWriter (recordWord Sample.upperCat) ([Sample.run] ++ [["short"; "row"]]) = None /\
  lastWriter (recordWord Sample.lowerCat) [["short"; "row"]] = None /\
  lastWriter (ToLower (recordWord Sample.lowerCat)) [["short"; "row"]] = None /\
  exists dictMap,
    parseDictLoop
      (ReadRecord <$> ([Sample.header] ++ Sample.upperCat :: [Sample.run]
                         ++ Sample.lowerCat :: [["short"; "row"]])) ∅
      = Some dictMap /\
    dictMap !! ToLower (recordWord Sample.lowerCat) = Some (recordItem Sample.lowerCat) /\
    dictMap !! recordWord Sample.lowerCat = Some (recordItem Sample.lowerCat) /\
    dictMap !! recordWord Sample.upperCat =
      Some (if bool_decide (recordWord Sample.upperCat = ToLower (recordWord Sample.upperCat))
            then recordItem Sample.lowerCat else recordItem Sample.upperCat).
Proof.
  assert (accepted Sample.upperCat = true) as H1 by (vm_compute; reflexivity).
  assert (accepted Sample.lowerCat = true) as H2 by (vm_compute; reflexivity).
  assert (recordWord Sample.upperCat <> recordWord Sample.lowerCat) as H3
    by (vm_compute; discriminate).
  assert (ToLower (recordWord Sample.upperCat) = ToLower (recordWord Sample.lowerCat)) as H4
    by (vm_compute; reflexivity).
  assert (lastWriter (recordWord Sample.upperCat) ([Sample.run] ++ [["short"; "row"]]) = None)
    as H5 by (vm_compute; reflexivity).
  assert (lastWriter (recordWord Sample.lowerCat) [["short"; "row"]] = None) as H6
    by (vm_compute; reflexivity).
  assert (lastWriter (ToLower (recordWord Sample.lowerCat)) [["short"; "row"]] = None) as H7
    by (vm_compute; reflexivity).
  split; [exact H1|]. split; [exact H2|]. split; [exact H3|]. split; [exact H4|].
  split; [exact H5|]. split; [exact H6|]. split; [exact H7|].
  exact (case_variants_last_writer_wins [Sample.header] [Sample.run] [["short"; "row"]]
           Sample.upperCat Sample.lowerCat H1 H2 H3 H4 H5 H6 H7).
Defined.

(** C5 as stated fails when the earlier record of the pair is the
    lowercase one: ["cat"] then ["Cat"] are two valid records whose words
    differ only in case, and after loading the exact-case key ["cat"] of
    the first record holds the data of the second. *)
Lemma earlier_lowercase_word_is_overwritten :
  accepted Sample.lowerCat = true /\
  accepted Sample.upperCat = true /\
  recordWord Sample.lowerCat <> recordWord Sample.upperCat /\
  ToLower (recordWord Sample.lowerCat) = ToLower (recordWord Sample.upperCat) /\
  exists dictMap,
    parseDictLoop (ReadRecord <$> [Sample.lowerCat; Sample.upperCat]) ∅ = Some dictMap /\
    dictMap !! recordWord Sample.lowerCat = Some (recordItem Sample.upperCat) /\
    dictMap !! recordWord Sample.lowerCat <> Some (recordItem Sample.lowerCat).
Proof.
  split; [vm_compute; reflexivity|]. split; [vm_compute; reflexivity|].
  split; [vm_compute; discriminate|]. split; [vm_compute; reflexivity|].
  eexists. split; [vm_compute; reflexivity|].
  split; [vm_compute; reflexivity|vm_compute; discriminate].
Qed.

(** C7 on the sample: both maps of the loaded state are non-empty and a
    further [loadDict] changes nothing. *)
Lemma loadDict_idempotent_witness :
  size (dictMapSingleton Sample.loaded) <> 0 /\
  size (lemmaMapSingleton Sample.loaded) <> 0 /\
  loadDict Sample.loaded = Some (tt, Sample.loaded) /\
  loadDictTimes 3 initialState = loadDict initialState.
Proof.
  assert (size (dictMapSingleton Sample.loaded) <> 0) as Hdict by (vm_compute; lia).
  assert (size (lemmaMapSingleton Sample.loaded) <> 0) as Hlemma by (vm_compute; lia).
  split; [exact Hdict|]. split; [exact Hlemma|].
  split; [exact (proj2 (loadDict_idempotent Sample.loaded) Hdict Hlemma)|].
  exact (proj1 (loadDict_idempotent initialState) 2).
Defined.

(** C8 on the sample: the caller overwrites the cell it got for
    ["running"] with another entry; the next [LookUp] still gives the
    entry of ["run"]. *)
Lemma LookUp_returns_a_copy_witness :
  LookUp " running " Sample.loaded
    = Some (Some 0, withHeap [recordItem Sample.run] Sample.loaded) /\
  exists item,
    deref 0 (withHeap [recordItem Sample.run] Sample.loaded) = Some item /\
    exists q s3,
      LookUp " running "
        (store 0 (recordItem Sample.upperCat)
           (withHeap [recordItem Sample.run] Sample.loaded))
        = Some (Some q, s3) /\
      deref q s3 = Some item.
Proof.
  assert (LookUp " running " Sample.loaded
          = Some (Some 0, withHeap [recordItem Sample.run] Sample.loaded)) as Hrun
    by (vm_compute; reflexivity).
  split; [exact Hrun|].
  destruct (LookUp_returns_a_copy " running " Sample.loaded _ 0 Hrun)
    as (item & Hcell & Hafter).
  exists item. split; [exact Hcell|].
  destruct (Hafter (recordItem Sample.upperCat)) as (_ & _ & _ & q & s3 & Hagain & Hsame & _).
  exists q, s3. split; [exact Hagain|exact Hsame].
Defined.

(** C9 on the sample: ["zebra"] is in neither map. *)
Lemma failed_LookUp_returns_nil_witness :
  reachable Sample.loaded /\
  specLookUp (dictMapSingleton Sample.loaded) (lemmaMapSingleton Sample.loaded) " zebra" = None /\
  LookUp " zebra" Sample.loaded = Some (None, Sample.loaded).
Proof.
  assert (specLookUp (dictMapSingleton Sample.loaded) (lemmaMapSingleton Sample.loaded)
            " zebra" = None) as Hmiss by (vm_compute; reflexivity).
  split; [exact Sample_reachable|]. split; [exact Hmiss|].
  exact (failed_LookUp_returns_nil " zebra" Sample.loaded Sample_reachable Hmiss).
Defined.

(** C10 on the sample: ["Cat"] is a key, and so is its lowercase form. *)
Lemma dict_keys_closed_under_ToLower_witness :
  (forall s, ToLower (ToLower s) = ToLower s) /\
  parseDict = Some (dictMapSingleton Sample.loaded) /\
  is_Some (dictMapSingleton Sample.loaded !! "Cat") /\
  is_Some (dictMapSingleton Sample.loaded !! ToLower "Cat").
Proof.
  assert (parseDict = Some (dictMapSingleton Sample.loaded)) as Hparse
    by (vm_compute; reflexivity).
  assert (is_Some (dictMapSingleton Sample.loaded !! "Cat")) as Hkey
    by (vm_compute; eexists; reflexivity).
  split; [exact toLower_idempotent|]. split; [exact Hparse|]. split; [exact Hkey|].
  exact (dict_keys_closed_under_ToLower (dictMapSingleton Sample.loaded) "Cat"
           toLower_idempotent Hparse Hkey).
Defined.

(** * The further properties on the sample input *)

(** X4 on the sample: the entry under ["cat"]. *)
Lemma dict_entries_are_keyed_by_their_word_witness :
  parseDict = Some (dictMapSingleton Sample.loaded) /\
  dictMapSingleton Sample.loaded !! "cat" = Some (recordItem Sample.lowerCat) /\
  Word (recordItem Sample.lowerCat) <> "" /\
  ("cat" = Word (recordItem Sample.lowerCat)
   \/ "cat" = ToLower (Word (recordItem Sample.lowerCat))) /\
  ~ (Word (recordItem Sample.lowerCat) = "word"
     /\ Phonetic (recordItem Sample.lowerCat) = "phonetic").
Proof.
  assert (parseDict = Some (dictMapSingleton Sample.loaded)) as Hparse
    by (vm_compute; reflexivity).
  assert (dictMapSingleton Sample.loaded !! "cat" = Some (recordItem Sample.lowerCat)) as Hk
    by (vm_compute; reflexivity).
  split; [exact Hparse|]. split; [exact Hk|].
  exact (dict_entries_are_keyed_by_their_word
           (dictMapSingleton Sample.loaded) "cat" (recordItem Sample.lowerCat) Hparse Hk).
Defined.

(** X6 on the sample: ["cat"] is written by the rows of ["Cat"] and of
    ["cat"]; the row of ["cat"] is the last one. *)
Lemma parseDict_last_record_wins_witness :
  accepted Sample.lowerCat = true /\
  ("cat" = recordWord Sample.lowerCat \/ "cat" = ToLower (recordWord Sample.lowerCat)) /\
  (forall later, later ∈ [Sample.run; ["short"; "row"]] -> writes later "cat" = false) /\
  exists dictMap,
    parseDictLoop
      (ReadRecord <$> ([Sample.header; Sample.upperCat]
                         ++ Sample.lowerCat :: [Sample.run; ["short"; "row"]])) ∅
      = Some dictMap /\
    dictMap !! "cat" = Some (recordItem Sample.lowerCat).
Proof.
  assert (accepted Sample.lowerCat = true) as Hacc by (vm_compute; reflexivity).
  assert ("cat" = recordWord Sample.lowerCat \/ "cat" = ToLower (recordWord Sample.lowerCat))
    as Hkey by (left; vm_compute; reflexivity).
  assert (forall later, later ∈ [Sample.run; ["short"; "row"]] -> writes later "cat" = false)
    as Hafter.
  { intros later Hin.
    apply elem_of_cons in Hin as [->|Hin]; [vm_compute; reflexivity|].
    apply elem_of_cons in Hin as [->|Hin]; [vm_compute; reflexivity|].
    destruct (proj1 (elem_of_nil later) Hin). }
  split; [exact Hacc|]. split; [exact Hkey|]. split; [exact Hafter|].
  exact (parseDict_last_record_wins [Sample.header; Sample.upperCat]
           [Sample.run; ["short"; "row"]] Sample.lowerCat "cat" Hacc Hkey Hafter).
Defined.

(** X8 on the sample. *)
Lemma maps_fixed_after_init_witness :
  reachable Sample.loaded /\
  parseDict = Some (dictMapSingleton Sample.loaded) /\
  lemmaMapSingleton Sample.loaded = parseLemma /\
  loadDict Sample.loaded = Some (tt, Sample.loaded).
Proof.
  split; [exact Sample_reachable|].
  exact (maps_fixed_after_init Sample.loaded Sample_reachable).
Defined.

(** X9 on the sample: a hit. *)
Lemma LookUp_never_exits_after_init_witness :
  reachable Sample.loaded /\
  exists s',
    lookUpReturns " running " Sample.loaded
      (specLookUp (dictMapSingleton Sample.loaded) (lemmaMapSingleton Sample.loaded)
         " running ") s' /\
    dictMapSingleton s' = dictMapSingleton Sample.loaded /\
    lemmaMapSingleton s' = lemmaMapSingleton Sample.loaded /\
    forall q, q < length (heap Sample.loaded) -> deref q s' = deref q Sample.loaded.
Proof.
  split; [exact Sample_reachable|].
  exact (LookUp_never_exits_after_init " running " Sample.loaded Sample_reachable).
Defined.

(** X10 on the sample: the row of ["run"], asked for with blanks around. *)
Lemma accepted_record_is_found_witness :
  reachable Sample.loaded /\
  ReadRecord Sample.run ∈ ecdictCsv /\
  accepted Sample.run = true /\
  (TrimSpace " run " = recordWord Sample.run
   \/ TrimSpace " run " = ToLower (recordWord Sample.run)) /\
  lemmaMapSingleton Sample.loaded !! TrimSpace " run " = None /\
  exists p s' item,
    LookUp " run " Sample.loaded = Some (Some p, s') /\
    deref p s' = Some item /\
    (TrimSpace " run " = Word item \/ TrimSpace " run " = ToLower (Word item)).
Proof.
  assert (ReadRecord Sample.run ∈ ecdictCsv) as Hin.
  { apply list_elem_of_fmap. exists Sample.run. split; [reflexivity|].
    do 3 apply list_elem_of_further. apply list_elem_of_here. }
  assert (accepted Sample.run = true) as Hacc by (vm_compute; reflexivity).
  assert (TrimSpace " run " = recordWord Sample.run
          \/ TrimSpace " run " = ToLower (recordWord Sample.run)) as Hword
    by (left; vm_compute; reflexivity).
  assert (lemmaMapSingleton Sample.loaded !! TrimSpace " run " = None) as Hlemma
    by (vm_compute; reflexivity).
  split; [exact Sample_reachable|]. split; [exact Hin|]. split; [exact Hacc|].
  split; [exact Hword|]. split; [exact Hlemma|].
  exact (accepted_record_is_found Sample.run " run " Sample.loaded
           Sample_reachable Hin Hacc Hword Hlemma).
Defined.

(** X11 on the sample: ["running"] gives what ["run"] gives. *)
Lemma inflected_form_gives_base_entry_witness :
  reachable Sample.loaded /\
  lemmaMapSingleton Sample.loaded !! TrimSpace " running " = Some (TrimSpace "run") /\
  lemmaMapSingleton Sample.loaded !! TrimSpace "run" = None /\
  LookUp " running " Sample.loaded = LookUp "run" Sample.loaded.
Proof.
  assert (lemmaMapSingleton Sample.loaded !! TrimSpace " running " = Some (TrimSpace "run"))
    as Hinfl by (vm_compute; reflexivity).
  assert (lemmaMapSingleton Sample.loaded !! TrimSpace "run" = None) as Hbase
    by (vm_compute; reflexivity).
  split; [exact Sample_reachable|]. split; [exact Hinfl|]. split; [exact Hbase|].
  exact (inflected_form_gives_base_entry " running " "run" Sample.loaded
           Sample_reachable Hinfl Hbase).
Defined.

(** X12 on the sample: the entry returned for ["running"] is that of the
    row of ["run"]. *)
Lemma LookUp_entry_matches_resolved_word_witness :
  reachable Sample.loaded /\
  LookUp " running " Sample.loaded
    = Some (Some 0, withHeap [recordItem Sample.run] Sample.loaded) /\
  deref 0 (withHeap [recordItem Sample.run] Sample.loaded) = Some (recordItem Sample.run) /\
  Word (recordItem Sample.run) <> "" /\
  (match lemmaMapSingleton Sample.loaded !! TrimSpace " running " with
   | Some base => base
   | None => TrimSpace " running "
   end = Word (recordItem Sample.run)
   \/ match lemmaMapSingleton Sample.loaded !! TrimSpace " running " with
      | Some base => base
      | None => TrimSpace " running "
      end = ToLower (Word (recordItem Sample.run))) /\
  exists record, ReadRecord record ∈ ecdictCsv /\ recordItem Sample.run = recordItem record.
Proof.
  assert (LookUp " running " Sample.loaded
          = Some (Some 0, withHeap [recordItem Sample.run] Sample.loaded)) as Hrun
    by (vm_compute; reflexivity).
  assert (deref 0 (withHeap [recordItem Sample.run] Sample.loaded)
          = Some (recordItem Sample.run)) as Hcell by reflexivity.
  split; [exact Sample_reachable|]. split; [exact Hrun|]. split; [exact Hcell|].
  exact (LookUp_entry_matches_resolved_word " running " Sample.loaded _ 0
           (recordItem Sample.run) Sample_reachable Hrun Hcell).
Defined.
